(** * gson: a dynamic JSON value container (src/gson.go)

    A shallow embedding of the navigation, mutation and coercion layer
    of package [json] (type [Gson]) and the properties its specification
    states about it. *)

From Stdlib Require Import ZArith String Ascii List Lia.
From stdpp Require Import base gmap strings list fin_maps pretty.

Local Open Scope string_scope.
Local Open Scope Z_scope.
Local Open Scope list_scope.

(** ** Values held by an [interface{}] *)

(** The dynamic types the type switches of gson.go tell apart. *)
Inductive float_kind := Kfloat32 | Kfloat64.
Inductive int_kind := Kint | Kint8 | Kint16 | Kint32 | Kint64.
Inductive uint_kind := Kuint | Kuint8 | Kuint16 | Kuint32 | Kuint64.

(** [data interface{}].  Decoding with [UseNumber] produces [Nil],
    [Bool], [Number] (a [json.Number], the literal's text), [Str],
    [Array] and [Map]; [Set] and [SetPath] can also store host numbers
    ([HFloat] carries the IEEE-754 bits of the value, [HInt] and [HUint]
    the integer) and values of any other Go type ([Opaque]).  A Go map
    has no order and unique keys: a [gmap].  A [map[string]interface{}]
    can also be the nil map ([NilMap]), the zero value of the type that
    [MustMap] returns by default: it passes the type assertion to a map
    and reads as a map without keys, but a write to it panics.  Values
    are finite trees: a node owns its children, there is no sharing and
    no cycle. *)
#[warnings="-register-all"]
Inductive value : Type :=
  | Nil
  | Bool (b : bool)
  | Number (s : string)
  | Str (s : string)
  | HFloat (k : float_kind) (bits : Z)
  | HInt (k : int_kind) (z : Z)
  | HUint (k : uint_kind) (z : Z)
  | Array (a : list value)
  | Map (m : gmap string value)
  | NilMap
  | Opaque (tag : nat).

(** [type Gson struct { data interface{} }] *)
Record Gson := mkGson { data : value }.

(** ** Errors, results and panics *)

(** [strconv.ErrSyntax] and [strconv.ErrRange]. *)
Inductive num_err := ErrSyntax | ErrRange.

(** An [error]: one made by [errors.New], or a [*strconv.NumError]. *)
Inductive error :=
  | ErrorNew (msg : string)
  | NumError (Func Num : string) (Err : num_err).

(** A Go result pair [(T, error)]; the second component is [None] for a
    [nil] error.  Slices, maps and pointers can be [nil]: they are
    options, [None] being [nil]. *)
Definition result (A : Type) : Type := A * option error.

(** A call either returns or panics. *)
Inductive outcome (A : Type) : Type :=
  | Ret (a : A)
  | Panic (msg : string).
Arguments Ret {A} a.
Arguments Panic {A} msg.

Definition bind {A B} (o : outcome A) (f : A -> outcome B) : outcome B :=
  match o with
  | Ret a => f a
  | Panic msg => Panic msg
  end.

(** [len] of a slice; a nil slice has length 0. *)
Definition len {A} (a : option (list A)) : Z :=
  match a with
  | Some l => Z.of_nat (length l)
  | None => 0
  end.

(** The index expression [a[i]] on a slice: a run-time panic when [i]
    is out of range, negative indices included. *)
Definition index {A} (a : option (list A)) (i : Z) : outcome A :=
  if (0 <=? i) && (i <? len a) then
    match a with
    | Some l =>
        match l !! Z.to_nat i with
        | Some x => Ret x
        | None => Panic "runtime error: index out of range"
        end
    | None => Panic "runtime error: index out of range"
    end
  else Panic "runtime error: index out of range".

(** ** Type assertions *)

(** [Map] type asserts to [map].  On the nil map the assertion holds
    and the map returned is [nil], with a [nil] error. *)
Definition Map_ (self : Gson) : result (option (gmap string value)) :=
  match data self with
  | Map m => (Some m, None)
  | NilMap => (None, None)
  | _ => (None, Some (ErrorNew "type assertion to map[string]interface{} failed"))
  end.

(** [Array] type asserts to an [array]. *)
Definition Array_ (self : Gson) : result (option (list value)) :=
  match data self with
  | Array a => (Some a, None)
  | _ => (None, Some (ErrorNew "type assertion to []interface{} failed"))
  end.

(** [Bool] type asserts to [bool]. *)
Definition Bool_ (self : Gson) : result bool :=
  match data self with
  | Bool s => (s, None)
  | _ => (false, Some (ErrorNew "type assertion to bool failed"))
  end.

(** [String] type asserts to [string]. *)
Definition String_ (self : Gson) : result string :=
  match data self with
  | Str s => (s, None)
  | _ => ("", Some (ErrorNew "type assertion to string failed"))
  end.

(** [Bytes] type asserts to [[]byte]. *)
Definition Bytes (self : Gson) : result (option (list ascii)) :=
  match data self with
  | Str s => (Some (list_ascii_of_string s), None)
  | _ => (None, Some (ErrorNew "type assertion to []byte failed"))
  end.

(** The string [StringArray] appends for an element: the empty string
    for [nil], the string itself for a string; no other element has
    one. *)
Definition string_or_nil (v : value) : option string :=
  match v with
  | Nil => Some ""
  | Str s => Some s
  | _ => None
  end.

(** The loop of [StringArray] over the elements that remain, [retArr]
    being the strings appended so far.  On an element that is neither
    [nil] nor a string the source returns [nil, err], [err] being the
    error of the [Array] call that came before. *)
Fixpoint StringArray_loop (err : option error) (arr : list value)
    (retArr : list string) : result (option (list string)) :=
  match arr with
  | [] => (Some retArr, None)
  | a :: arr' =>
      match a with
      | Nil => StringArray_loop err arr' (retArr ++ [""])
      | Str s => StringArray_loop err arr' (retArr ++ [s])
      | _ => (None, err)
      end
  end.

(** [StringArray] type asserts to an [array] of [string]. *)
Definition StringArray (self : Gson) : result (option (list string)) :=
  let '(arr, err) := Array_ self in
  match err with
  | Some _ => (None, err)
  | None => StringArray_loop err (default [] arr) []
  end.

(** ** Navigation *)

(** Methods have the receiver [self *Gson]; they are written over the
    struct the receiver points to.  A handle that may be [nil] is an
    [option Gson], and a method called through it reads [self.data]
    first: on [nil] that is a nil pointer dereference. *)
Definition call {A} (self : option Gson) (method : Gson -> A) : outcome A :=
  match self with
  | Some g => Ret (method g)
  | None => Panic "invalid memory address or nil pointer dereference"
  end.

(** [Get] returns a pointer to a new [Gson] for [key] in its [map]
    representation; the pointer is never [nil]. *)
Definition Get (key : string) (self : Gson) : Gson :=
  let '(m, err) := Map_ self in
  match err, m with
  | None, Some m =>
      match m !! key with
      | Some val => mkGson val
      | None => mkGson Nil
      end
  | _, _ => mkGson Nil
  end.

(** [GetPath] searches for the item as specified by the branch. *)
Fixpoint GetPath (branch : list string) (self : Gson) : Gson :=
  match branch with
  | [] => self
  | p :: branch' => GetPath branch' (Get p self)
  end.

(** [GetIndex] returns a pointer to a new [Gson] for [index] in its
    [array] representation. *)
Definition GetIndex (idx : Z) (self : Gson) : outcome Gson :=
  let '(a, err) := Array_ self in
  match err with
  | None =>
      if len a >? idx
      then bind (index a idx) (fun x => Ret (mkGson x))
      else Ret (mkGson Nil)
  | Some _ => Ret (mkGson Nil)
  end.

(** [CheckGet] returns a pointer to a new [Gson] and a [bool]
    identifying success or failure; the pointer is [nil] on failure. *)
Definition CheckGet (key : string) (self : Gson) : option Gson * bool :=
  let '(m, err) := Map_ self in
  match err, m with
  | None, Some m =>
      match m !! key with
      | Some val => (Some (mkGson val), true)
      | None => (None, false)
      end
  | _, _ => (None, false)
  end.

(** ** Mutation *)

(** A Go map is a reference: [m[key] = val] on the map [self.data]
    holds changes the tree under [self].  A mutating method returns the
    [Gson] as it is after the call, or panics. *)

(** The run-time panic of an assignment [m[key] = val] on a nil map. *)
Definition nil_map_panic : string := "assignment to entry in nil map".

(** [Set] modifies [Gson] map by [key] and [value].  [Map] returns the
    nil map with no error, and the assignment to it panics. *)
Definition Set_ (key : string) (val : value) (self : Gson) : outcome Gson :=
  let '(m, err) := Map_ self in
  match err with
  | Some _ => Ret self
  | None =>
      match m with
      | Some m => Ret (mkGson (Map (<[key := val]> m)))
      | None => Panic nil_map_panic
      end
  end.

(** [Del] modifies [Gson] map by deleting [key] if it is present;
    [delete] on the nil map does nothing. *)
Definition Del (key : string) (self : Gson) : Gson :=
  let '(m, err) := Map_ self in
  match err, m with
  | None, Some m => mkGson (Map (delete key m))
  | _, _ => self
  end.

(** The walk of [SetPath] from the map [curr], [None] being the nil
    map: [b] is [branch[i]] and [rest] the keys after it.  While keys
    remain after [b] the loop body runs: an absent key gets a new map,
    a value that is not a map is replaced with a new map, a map is
    kept, the nil map too, and the walk goes on in it; at the last key
    the value is written.  The nil map holds no key, so what the walk
    does first in it is an assignment, [curr[b] = n] in the loop or
    [curr[b] = val] after it, and that panics.  The result is [curr] as
    the walk leaves it. *)
Fixpoint SetPath_walk (curr : option (gmap string value)) (b : string)
    (rest : list string) (val : value) : outcome (gmap string value) :=
  match curr with
  | None => Panic nil_map_panic
  | Some curr =>
      match rest with
      | [] => Ret (<[b := val]> curr)
      | b' :: rest' =>
          match curr !! b with
          | None =>
              let n := ∅ in
              bind (SetPath_walk (Some n) b' rest' val)
                (fun n => Ret (<[b := Map n]> curr))
          | Some (Map n) =>
              bind (SetPath_walk (Some n) b' rest' val)
                (fun n => Ret (<[b := Map n]> curr))
          | Some NilMap =>
              bind (SetPath_walk None b' rest' val)
                (fun n => Ret (<[b := Map n]> curr))
          | Some _ =>
              let n := ∅ in
              bind (SetPath_walk (Some n) b' rest' val)
                (fun n => Ret (<[b := Map n]> curr))
          end
      end
  end.

(** [SetPath] modifies [Gson], recursively checking/creating map keys
    for the supplied path, and then finally writing in the value.  A
    root that is the nil map passes the type assertion and is kept. *)
Definition SetPath (branch : list string) (val : value) (self : Gson)
    : outcome Gson :=
  match branch with
  | [] => Ret (mkGson val)
  | b :: rest =>
      let curr :=
        match data self with
        | Map m => Some m
        | NilMap => None
        | _ => Some ∅
        end in
      bind (SetPath_walk curr b rest val) (fun m => Ret (mkGson (Map m)))
  end.

(** [New] returns a pointer to a new, empty [Gson] object. *)
Definition New : Gson := mkGson (Map ∅).

(** ** Fixed-width integers *)

(** Conversion to [uint64] and to [int64]: the value modulo [2^64]. *)
Definition uint64 (z : Z) : Z := z mod 2 ^ 64.
Definition int64 (z : Z) : Z := (z + 2 ^ 63) mod 2 ^ 64 - 2 ^ 63.

Definition maxUint64 : Z := 2 ^ 64 - 1.

(** ** [strconv] at base 10 and bit size 64

    [json.Number.Int64] is [strconv.ParseInt(string(n), 10, 64)] and
    [Uint64] calls [strconv.ParseUint(s, 10, 64)]; both belong to Go's
    standard library and are written here at these arguments. *)
Module strconv.

Definition fnParseUint : string := "ParseUint".
Definition fnParseInt : string := "ParseInt".

Definition syntaxError (fn str : string) : error := NumError fn str ErrSyntax.
Definition rangeError (fn str : string) : error := NumError fn str ErrRange.

Definition base : Z := 10.
Definition bitSize : Z := 64.

(** [lower(c)] is [c | ('x' - 'X')]. *)
Definition lower (c : Z) : Z := Z.lor c 32.

(** The digit a byte stands for: ['0'..'9'] (48 to 57), or a letter
    ['a'..'z'] (97 to 122) in either case; [None] is the [default]
    arm of the switch. *)
Definition digit (c : Z) : option Z :=
  if (48 <=? c) && (c <=? 57) then Some (c - 48)
  else if (97 <=? lower c) && (lower c <=? 122) then Some (lower c - 97 + 10)
  else None.

(** Cutoff is the smallest number such that [cutoff*base > maxUint64]. *)
Definition cutoff : Z := maxUint64 / 10 + 1.
Definition maxVal : Z := uint64 (Z.shiftl 1 bitSize - 1).

(** The loop of [ParseUint] over the bytes that remain; [n] is the
    number read so far, [s0] the whole input. *)
Fixpoint ParseUint_loop (s0 s : string) (n : Z) : result Z :=
  match s with
  | EmptyString => (n, None)
  | String ch s' =>
      match digit (Z.of_N (N_of_ascii ch)) with
      | None => (0, Some (syntaxError fnParseUint s0))
      | Some d =>
          if d >=? base then (0, Some (syntaxError fnParseUint s0))
          else if n >=? cutoff then (maxVal, Some (rangeError fnParseUint s0))
          else
            let n := uint64 (n * base) in
            let n1 := uint64 (n + d) in
            if (n1 <? n) || (n1 >? maxVal)
            then (maxVal, Some (rangeError fnParseUint s0))
            else ParseUint_loop s0 s' n1
      end
  end.

Definition ParseUint (s : string) : result Z :=
  match s with
  | EmptyString => (0, Some (syntaxError fnParseUint s))
  | _ => ParseUint_loop s s 0
  end.

Definition ParseInt (s : string) : result Z :=
  match s with
  | EmptyString => (0, Some (syntaxError fnParseInt s))
  | String ch s1 =>
      let s0 := s in
      (* Pick off leading sign. *)
      let '(neg, s) :=
        if Ascii.eqb ch "+" then (false, s1)
        else if Ascii.eqb ch "-" then (true, s1)
        else (false, s) in
      (* Convert unsigned and check range. *)
      let '(un, err) := ParseUint s in
      let not_range :=
        match err with
        | None | Some (NumError _ _ ErrRange) => false
        | Some _ => true
        end in
      if not_range then
        (* err.Func = fnParseInt; err.Num = s0 *)
        (0, match err with
            | Some (NumError _ _ e) => Some (NumError fnParseInt s0 e)
            | _ => err
            end)
      else
        let cutoff := uint64 (Z.shiftl 1 (bitSize - 1)) in
        if negb neg && (un >=? cutoff) then
          (int64 (cutoff - 1), Some (rangeError fnParseInt s0))
        else if neg && (un >? cutoff) then
          (int64 (- int64 cutoff), Some (rangeError fnParseInt s0))
        else
          let n := int64 un in
          let n := if neg then int64 (- n) else n in
          (n, None)
  end.

End strconv.

(** ** Decimal integers, as the specification reads them

    An integral-looking text is an optional sign and then one decimal
    digit or more; it is read at unbounded precision. *)
Definition spec_digit (ch : ascii) : option Z :=
  let c := Z.of_N (N_of_ascii ch) in
  if (48 <=? c) && (c <=? 57) then Some (c - 48) else None.

Fixpoint spec_digits (acc : Z) (s : string) : option Z :=
  match s with
  | EmptyString => Some acc
  | String ch s' =>
      match spec_digit ch with
      | Some d => spec_digits (acc * 10 + d) s'
      | None => None
      end
  end.

Definition spec_decimal_nat (s : string) : option Z :=
  match s with
  | EmptyString => None
  | _ => spec_digits 0 s
  end.

Definition spec_decimal_int (s : string) : option Z :=
  match s with
  | String "+" s' => spec_decimal_nat s'
  | String "-" s' => Z.opp <$> spec_decimal_nat s'
  | _ => spec_decimal_nat s
  end.

(** ** Numeric coercion *)

Section Coercer.

(** Floating point and the width of [int] belong to the host.  A
    [float64] is carried as its IEEE-754 bits; what the host computes
    on them is not fixed here. *)
Variable IntSize : Z.
Variable ParseFloat64 : string -> result Z.
Variable float64_of_int64 : Z -> Z.
Variable float64_of_uint64 : Z -> Z.
Variable int_of_float64 : Z -> Z.
Variable int64_of_float64 : Z -> Z.
Variable uint64_of_float64 : Z -> Z.

(** Conversion to [int]: the value modulo [2^IntSize]. *)
Definition int (z : Z) : Z :=
  (z + 2 ^ (IntSize - 1)) mod 2 ^ IntSize - 2 ^ (IntSize - 1).

(** The methods of [json.Number]. *)
Definition Number_Float64 (n : string) : result Z := ParseFloat64 n.
Definition Number_Int64 (n : string) : result Z := strconv.ParseInt n.
Definition Number_String (n : string) : string := n.

Definition invalid_value_type : error := ErrorNew "invalid value type".

(** [Float64] coerces into a [float64]. *)
Definition Float64 (self : Gson) : result Z :=
  match data self with
  | Number n => Number_Float64 n
  | HFloat _ f => (f, None)
  | HInt _ i => (float64_of_int64 i, None)
  | HUint _ u => (float64_of_uint64 u, None)
  | _ => (0, Some invalid_value_type)
  end.

(** [Int] coerces into an [int]. *)
Definition Int (self : Gson) : result Z :=
  match data self with
  | Number n => let '(i, err) := Number_Int64 n in (int i, err)
  | HFloat _ f => (int_of_float64 f, None)
  | HInt _ i => (int i, None)
  | HUint _ u => (int u, None)
  | _ => (0, Some invalid_value_type)
  end.

(** [Int64] coerces into an [int64]. *)
Definition Int64 (self : Gson) : result Z :=
  match data self with
  | Number n => Number_Int64 n
  | HFloat _ f => (int64_of_float64 f, None)
  | HInt _ i => (i, None)
  | HUint _ u => (int64 u, None)
  | _ => (0, Some invalid_value_type)
  end.

(** [Uint64] coerces into an [uint64]. *)
Definition Uint64 (self : Gson) : result Z :=
  match data self with
  | Number n => strconv.ParseUint (Number_String n)
  | HFloat _ f => (uint64_of_float64 f, None)
  | HInt _ i => (uint64 i, None)
  | HUint _ u => (u, None)
  | _ => (0, Some invalid_value_type)
  end.

(** ** The must accessors *)

(** Every must accessor has this one body: [def] starts as the zero
    value of the type, [switch len(args)] takes the default from a
    single argument and [log.Panicf]s on more than one, and then the
    strict accessor decides between its value and [def]. *)
Definition must {T} (name : string) (zero : T) (strict : Gson -> result T)
    (args : list T) (self : Gson) : outcome T :=
  let after_switch (def : T) : outcome T :=
    let '(a, err) := strict self in
    match err with
    | None => Ret a
    | Some _ => Ret def
    end in
  match args with
  | [] => after_switch zero
  | [d] => after_switch d
  | _ =>
      Panic (name ++ " received too many arguments " ++ pretty (length args))%string
  end.

Definition MustArray := must "MustArray()" None Array_.
Definition MustMap := must "MustMap()" None Map_.
Definition MustString := must "MustString()" "" String_.
Definition MustStringArray := must "MustStringArray()" None StringArray.
Definition MustInt := must "MustInt()" 0 Int.
Definition MustFloat64 := must "MustFloat64()" 0 Float64.
Definition MustBool := must "MustBool()" false Bool_.
Definition MustInt64 := must "MustInt64()" 0 Int64.
Definition MustUint64 := must "MustUint64()" 0 Uint64.

End Coercer.

(** * Properties *)

(** ** [strconv.ParseUint] and [strconv.ParseInt] read decimal text exactly *)

Lemma uint64_small z : 0 <= z < 2 ^ 64 -> uint64 z = z.
Proof. intros H. unfold uint64. apply Z.mod_small. exact H. Qed.

Lemma uint64_wrap z : 2 ^ 64 <= z < 2 ^ 64 + 2 ^ 64 -> uint64 z = z - 2 ^ 64.
Proof.
  intros H. unfold uint64.
  replace z with ((z - 2 ^ 64) + 1 * 2 ^ 64) at 1 by ring.
  rewrite Z.mod_add by lia. apply Z.mod_small. lia.
Qed.

Lemma int64_small z : - 2 ^ 63 <= z < 2 ^ 63 -> int64 z = z.
Proof.
  intros H. unfold int64. rewrite Z.mod_small; lia.
Qed.

Lemma maxVal_eq : strconv.maxVal = 2 ^ 64 - 1.
Proof. reflexivity. Qed.

Lemma cutoff_eq : strconv.cutoff = 1844674407370955162.
Proof. reflexivity. Qed.

(** A byte is a decimal digit of the source exactly when the
    specification reads it as one. *)
Lemma digit_spec ch :
  match strconv.digit (Z.of_N (N_of_ascii ch)) with
  | Some d => if d >=? strconv.base then spec_digit ch = None
              else spec_digit ch = Some d /\ 0 <= d <= 9
  | None => spec_digit ch = None
  end.
Proof.
  unfold strconv.digit, spec_digit, strconv.base.
  set (c := Z.of_N (N_of_ascii ch)).
  destruct ((48 <=? c) && (c <=? 57)) eqn:Hd.
  - apply andb_prop in Hd as [H1 H2].
    apply Z.leb_le in H1. apply Z.leb_le in H2.
    destruct (c - 48 >=? 10) eqn:Hge.
    + apply Z.geb_le in Hge. lia.
    + split; [reflexivity | lia].
  - destruct ((97 <=? strconv.lower c) && (strconv.lower c <=? 122)) eqn:Hl;
      [| reflexivity].
    apply andb_prop in Hl as [H1 H2].
    apply Z.leb_le in H1. apply Z.leb_le in H2.
    destruct (strconv.lower c - 97 + 10 >=? 10) eqn:Hge; [reflexivity |].
    rewrite Z.geb_leb in Hge. apply Z.leb_gt in Hge. lia.
Qed.

Lemma spec_digit_range ch d : spec_digit ch = Some d -> 0 <= d <= 9.
Proof.
  unfold spec_digit.
  destruct (_ && _) eqn:Hd; [| discriminate].
  apply andb_prop in Hd as [H1 H2].
  apply Z.leb_le in H1. apply Z.leb_le in H2.
  intros [= <-]. lia.
Qed.

(** Reading more digits never makes the number smaller. *)
Lemma spec_digits_ge s : forall acc r,
  0 <= acc -> spec_digits acc s = Some r -> acc <= r.
Proof.
  induction s as [| ch s IH]; intros acc r Hacc; simpl.
  - intros [= <-]. lia.
  - destruct (spec_digit ch) as [d |] eqn:Hd; [| discriminate].
    apply spec_digit_range in Hd. intros Hr.
    apply IH in Hr; lia.
Qed.

(** The loop returns without an error exactly on digits whose value,
    continued from [n], stays below [2^64], and then returns it. *)
Lemma ParseUint_loop_spec s0 s : forall n r,
  0 <= n < 2 ^ 64 ->
  strconv.ParseUint_loop s0 s n = (r, None) <->
  spec_digits n s = Some r /\ r < 2 ^ 64.
Proof.
  induction s as [| ch s IH]; intros n r Hn; simpl.
  - split.
    + intros [= <-]. split; [reflexivity | lia].
    + intros [[= <-] _]. reflexivity.
  - pose proof (digit_spec ch) as Hd.
    destruct (strconv.digit (Z.of_N (N_of_ascii ch))) as [d |].
    2:{ rewrite Hd. split; [discriminate | intros [? _]; discriminate]. }
    destruct (d >=? strconv.base).
    { rewrite Hd. split; [discriminate | intros [? _]; discriminate]. }
    destruct Hd as [-> Hd].
    rewrite cutoff_eq, maxVal_eq. unfold strconv.base.
    destruct (n >=? 1844674407370955162) eqn:Hc.
    { apply Z.geb_le in Hc. split; [discriminate |].
      intros [Hr Hlt]. apply spec_digits_ge in Hr; lia. }
    rewrite Z.geb_leb in Hc. apply Z.leb_gt in Hc.
    rewrite (uint64_small (n * 10)) by lia.
    destruct (Z_lt_ge_dec (n * 10 + d) (2 ^ 64)) as [Hfit | Hover].
    + rewrite (uint64_small (n * 10 + d)) by lia.
      replace ((n * 10 + d <? n * 10) || (n * 10 + d >? 2 ^ 64 - 1)) with false.
      * apply IH. lia.
      * symmetry. apply orb_false_intro; [apply Z.ltb_ge | rewrite Z.gtb_ltb; apply Z.ltb_ge]; lia.
    + rewrite (uint64_wrap (n * 10 + d)) by lia.
      replace (n * 10 + d - 2 ^ 64 <? n * 10) with true
        by (symmetry; apply Z.ltb_lt; lia).
      simpl. split; [discriminate |].
      intros [Hr Hlt]. apply spec_digits_ge in Hr; lia.
Qed.

Lemma ParseUint_spec s r :
  strconv.ParseUint s = (r, None) <->
  spec_decimal_nat s = Some r /\ r < 2 ^ 64.
Proof.
  unfold strconv.ParseUint, spec_decimal_nat.
  destruct s as [| ch s].
  - split; [discriminate | intros [? _]; discriminate].
  - apply ParseUint_loop_spec. lia.
Qed.

(** Whatever [ParseUint] returns lies in [uint64], and a range error
    comes with [maxVal]. *)
Lemma ParseUint_loop_result s0 s : forall n,
  0 <= n < 2 ^ 64 ->
  match strconv.ParseUint_loop s0 s n with
  | (r, None) => 0 <= r < 2 ^ 64
  | (r, Some (NumError _ _ ErrRange)) => r = 2 ^ 64 - 1
  | (_, Some _) => True
  end.
Proof.
  induction s as [| ch s IH]; intros n Hn; simpl; [exact Hn |].
  destruct (strconv.digit _) as [d |]; [| exact I].
  destruct (d >=? strconv.base); [exact I |].
  destruct (n >=? strconv.cutoff); [reflexivity |].
  destruct (_ || _); [reflexivity |].
  apply IH. unfold uint64. apply Z.mod_pos_bound. lia.
Qed.

Lemma ParseUint_result s :
  match strconv.ParseUint s with
  | (r, None) => 0 <= r < 2 ^ 64
  | (r, Some (NumError _ _ ErrRange)) => r = 2 ^ 64 - 1
  | (_, Some _) => True
  end.
Proof.
  unfold strconv.ParseUint. destruct s; [exact I |].
  apply ParseUint_loop_result. lia.
Qed.

Lemma spec_decimal_int_unfold ch s :
  spec_decimal_int (String ch s) =
  if Ascii.eqb ch "+" then spec_decimal_nat s
  else if Ascii.eqb ch "-" then Z.opp <$> spec_decimal_nat s
  else spec_decimal_nat (String ch s).
Proof.
  destruct ch as [[] [] [] [] [] [] [] []]; reflexivity.
Qed.

Lemma sign_cutoff : uint64 (Z.shiftl 1 (strconv.bitSize - 1)) = 2 ^ 63.
Proof. reflexivity. Qed.

Lemma ParseInt_spec s n :
  strconv.ParseInt s = (n, None) <->
  spec_decimal_int s = Some n /\ - 2 ^ 63 <= n < 2 ^ 63.
Proof.
  destruct s as [| ch s1].
  { simpl. split; [discriminate | intros [? _]; discriminate]. }
  rewrite spec_decimal_int_unfold. unfold strconv.ParseInt.
  destruct (Ascii.eqb ch "+") eqn:Hplus; [| destruct (Ascii.eqb ch "-") eqn:Hminus].
  all: cbv zeta iota beta.
  all: match goal with
       | |- context [strconv.ParseUint ?t] =>
           pose proof (ParseUint_result t) as Hres;
           pose proof (ParseUint_spec t) as Hspec;
           destruct (strconv.ParseUint t) as [un [e |]]
       end.
  all: rewrite sign_cutoff, ?Z.geb_leb, ?Z.gtb_ltb; cbn [negb andb].
  - (* "+", ParseUint fails *)
    split.
    + destruct e as [msg | f nm []]; try discriminate.
      subst un. destruct (Z.leb_spec (2 ^ 63) (2 ^ 64 - 1)); [discriminate | lia].
    + intros [Hn Hr]. assert (E : (un, Some e) = (n, @None error)); [| discriminate E].
      apply Hspec. split; [exact Hn | lia].
  - (* "+", ParseUint succeeds *)
    assert (Hun : spec_decimal_nat s1 = Some un) by (apply Hspec; reflexivity).
    rewrite Hun. destruct (Z.leb_spec (2 ^ 63) un).
    + split; [discriminate | intros [[= <-] ?]; lia].
    + rewrite int64_small by lia.
      split; [intros [= <-]; split; [reflexivity | lia] | intros [[= <-] _]; reflexivity].
  - (* "-", ParseUint fails *)
    split.
    + destruct e as [msg | f nm []]; try discriminate.
      subst un. destruct (Z.ltb_spec (2 ^ 63) (2 ^ 64 - 1)); [discriminate | lia].
    + intros [Hn Hr]. destruct (spec_decimal_nat s1) as [r |] eqn:Hs; [| discriminate].
      injection Hn as <-.
      assert (E : (un, Some e) = (r, @None error)); [| discriminate E].
      apply Hspec. split; [reflexivity | lia].
  - (* "-", ParseUint succeeds *)
    assert (Hun : spec_decimal_nat s1 = Some un) by (apply Hspec; reflexivity).
    rewrite Hun. cbn [fmap option_fmap option_map].
    destruct (Z.ltb_spec (2 ^ 63) un).
    + split; [discriminate | intros [[= <-] ?]; lia].
    + assert (E : int64 (- int64 un) = - un).
      { destruct (Z.eq_dec un (2 ^ 63)) as [-> | Hne]; [reflexivity |].
        rewrite (int64_small un) by lia. apply int64_small. lia. }
      rewrite E.
      split; [intros [= <-]; split; [reflexivity | lia] | intros [[= <-] _]; reflexivity].
  - (* no sign, ParseUint fails *)
    split.
    + destruct e as [msg | f nm []]; try discriminate.
      subst un. destruct (Z.leb_spec (2 ^ 63) (2 ^ 64 - 1)); [discriminate | lia].
    + intros [Hn Hr]. assert (E : (un, Some e) = (n, @None error)); [| discriminate E].
      apply Hspec. split; [exact Hn | lia].
  - (* no sign, ParseUint succeeds *)
    assert (Hun : spec_decimal_nat (String ch s1) = Some un) by (apply Hspec; reflexivity).
    rewrite Hun. destruct (Z.leb_spec (2 ^ 63) un).
    + split; [discriminate | intros [[= <-] ?]; lia].
    + rewrite int64_small by lia.
      split; [intros [= <-]; split; [reflexivity | lia] | intros [[= <-] _]; reflexivity].
Qed.

(** ** [StringArray] *)

(** On an array of strings and [nil]s the loop returns the strings. *)
Lemma StringArray_loop_strings err arr : forall retArr strs,
  mapM string_or_nil arr = Some strs ->
  StringArray_loop err arr retArr = (Some (retArr ++ strs), None).
Proof.
  induction arr as [| a arr IH]; intros retArr strs; simpl.
  - intros [= <-]. by rewrite app_nil_r.
  - destruct a; simpl; try discriminate.
    + destruct (mapM string_or_nil arr); [| discriminate].
      intros [= <-]. rewrite (IH _ l eq_refl). by rewrite <- app_assoc.
    + destruct (mapM string_or_nil arr); [| discriminate].
      intros [= <-]. rewrite (IH _ l eq_refl). by rewrite <- app_assoc.
Qed.

(** On any other array it returns [nil] and hands back [err]. *)
Lemma StringArray_loop_other err arr : forall retArr,
  mapM string_or_nil arr = None ->
  StringArray_loop err arr retArr = (None, err).
Proof.
  induction arr as [| a arr IH]; intros retArr; simpl; [discriminate |].
  destruct a; simpl; try reflexivity.
  - destruct (mapM string_or_nil arr); [discriminate |]. intros _. by apply IH.
  - destruct (mapM string_or_nil arr); [discriminate |]. intros _. by apply IH.
Qed.

(** [StringArray] never returns an error on an array. *)
Lemma StringArray_Array_no_error arr :
  StringArray (mkGson (Array arr)) =
  (mapM string_or_nil arr, None).
Proof.
  unfold StringArray. simpl.
  destruct (mapM string_or_nil arr) as [strs |] eqn:E.
  - by rewrite (StringArray_loop_strings _ _ [] strs E).
  - by apply StringArray_loop_other.
Qed.

(** C1: [StringArray] on the array ["a", null, 2] is to fail with an
    error.  The source returns [nil, err] at the element [2], and [err]
    is the [nil] error of the [Array] call: the caller gets a nil slice
    and no error. *)
Theorem StringArray_mixed_array_returns_no_error :
  StringArray (mkGson (Array [Str "a"; Nil; Number "2"])) = (None, None).
Proof. reflexivity. Qed.

(** ** [GetIndex] *)

Lemma GetIndex_in_range a idx x :
  0 <= idx -> a !! Z.to_nat idx = Some x ->
  GetIndex idx (mkGson (Array a)) = Ret (mkGson x).
Proof.
  intros Hidx Hx. unfold GetIndex, index. simpl.
  apply lookup_lt_Some in Hx as Hlt.
  replace (Z.of_nat (length a) >? idx) with true
    by (symmetry; rewrite Z.gtb_ltb; apply Z.ltb_lt; lia).
  replace (0 <=? idx) with true by (symmetry; apply Z.leb_le; lia).
  replace (idx <? Z.of_nat (length a)) with true by (symmetry; apply Z.ltb_lt; lia).
  simpl. by rewrite Hx.
Qed.

Lemma GetIndex_beyond a idx :
  Z.of_nat (length a) <= idx -> GetIndex idx (mkGson (Array a)) = Ret (mkGson Nil).
Proof.
  intros H. unfold GetIndex. simpl.
  replace (Z.of_nat (length a) >? idx) with false; [done |].
  symmetry. rewrite Z.gtb_ltb. apply Z.ltb_ge. lia.
Qed.

Lemma GetIndex_not_Array idx self :
  (forall a, data self <> Array a) -> GetIndex idx self = Ret (mkGson Nil).
Proof.
  intros H. unfold GetIndex, Array_. destruct (data self); try reflexivity.
  by destruct (H a).
Qed.

(** A negative index passes the guard [len(a) > index] on every array
    and panics in [a[index]]. *)
Lemma GetIndex_negative a idx :
  idx < 0 -> GetIndex idx (mkGson (Array a)) = Panic "runtime error: index out of range".
Proof.
  intros H. unfold GetIndex, index. simpl.
  replace (Z.of_nat (length a) >? idx) with true
    by (symmetry; rewrite Z.gtb_ltb; apply Z.ltb_lt; lia).
  replace (0 <=? idx) with false by (symmetry; apply Z.leb_gt; lia).
  reflexivity.
Qed.

(** C2: [GetIndex] is to return the element for [0 <= index < length]
    and a [nil] value for every other index, with no panic.  On
    [1,2,3] index 5 gives the [nil] value; index -1 passes the guard
    [len(a) > index] and the index expression panics. *)
Theorem GetIndex_negative_index_panics :
  GetIndex 5 (mkGson (Array [Number "1"; Number "2"; Number "3"])) = Ret (mkGson Nil)
  /\ GetIndex (-1) (mkGson (Array [Number "1"; Number "2"; Number "3"]))
     = Panic "runtime error: index out of range".
Proof. split; reflexivity. Qed.

(** ** The must accessors *)

(** With at most one default a must accessor returns what the strict
    accessor returned when the error is [nil], else the default. *)
Lemma must_at_most_one {T} name (zero : T) strict (d : option T) self :
  must name zero strict (option_list d) self =
  Ret (match strict self with
       | (a, None) => a
       | (_, Some _) => default zero d
       end).
Proof.
  unfold must. destruct d as [d |]; simpl; by destruct (strict self) as [a [e |]].
Qed.

Lemma must_too_many {T} name (zero : T) strict a b rest self :
  must name zero strict (a :: b :: rest) self =
  Panic (name ++ " received too many arguments " ++ pretty (length (a :: b :: rest)))%string.
Proof. reflexivity. Qed.

(** C3: [MustStringArray] on an array with an element that is neither a
    string nor [nil] is to return the default.  [StringArray] returns a
    [nil] error there, so the accessor returns the nil slice of
    [StringArray] and drops the default. *)
Theorem MustStringArray_mixed_array_drops_default :
  MustStringArray [Some ["d"]] (mkGson (Array [Str "a"; Nil; Number "2"])) = Ret None.
Proof. reflexivity. Qed.

(** ** Coercion of a [json.Number] and the arity of the must accessors *)

Section CoercerProperties.

Variable IntSize : Z.
Variable ParseFloat64 : string -> result Z.
Variable float64_of_int64 float64_of_uint64 : Z -> Z.
Variable int_of_float64 int64_of_float64 uint64_of_float64 : Z -> Z.

(** C4: on a [Number] the [Int64] coercion reads the text exactly.
    9223372036854775807 is returned as it is; 99999999999999999999
    is a range error; and in general the call returns [n] with no
    error exactly when the text is an optional sign and decimal
    digits whose value [n] lies in [int64], so a text that is not
    integral or does not fit always comes with an error. *)
Theorem Int64_Number_exact :
  Int64 int64_of_float64 (mkGson (Number "9223372036854775807"))
    = (9223372036854775807, None)
  /\ Int64 int64_of_float64 (mkGson (Number "99999999999999999999"))
    = (9223372036854775807,
       Some (NumError "ParseInt" "99999999999999999999" ErrRange))
  /\ Int64 int64_of_float64 (mkGson (Number "12.5"))
    = (0, Some (NumError "ParseInt" "12.5" ErrSyntax))
  /\ forall s n,
       Int64 int64_of_float64 (mkGson (Number s)) = (n, None) <->
       spec_decimal_int s = Some n /\ - 2 ^ 63 <= n < 2 ^ 63.
Proof.
  split; [reflexivity |]. split; [reflexivity |]. split; [reflexivity |].
  intros s n. unfold Int64, Number_Int64. simpl. apply ParseInt_spec.
Qed.

(** C8: every must accessor panics, whatever the value, when it gets
    two default arguments or more. *)
Theorem must_accessors_panic_on_many_defaults (self : Gson) :
  (forall a b rest, exists msg, MustArray (a :: b :: rest) self = Panic msg)
  /\ (forall a b rest, exists msg, MustMap (a :: b :: rest) self = Panic msg)
  /\ (forall a b rest, exists msg, MustString (a :: b :: rest) self = Panic msg)
  /\ (forall a b rest, exists msg, MustStringArray (a :: b :: rest) self = Panic msg)
  /\ (forall a b rest, exists msg,
        MustInt IntSize int_of_float64 (a :: b :: rest) self = Panic msg)
  /\ (forall a b rest, exists msg,
        MustFloat64 ParseFloat64 float64_of_int64 float64_of_uint64
          (a :: b :: rest) self = Panic msg)
  /\ (forall a b rest, exists msg, MustBool (a :: b :: rest) self = Panic msg)
  /\ (forall a b rest, exists msg,
        MustInt64 int64_of_float64 (a :: b :: rest) self = Panic msg)
  /\ (forall a b rest, exists msg,
        MustUint64 uint64_of_float64 (a :: b :: rest) self = Panic msg).
Proof.
  repeat split; intros a b rest; eexists; apply must_too_many.
Qed.

End CoercerProperties.

(** ** [SetPath] *)

Lemma bind_Ret_inv {A B} (o : outcome A) (f : A -> outcome B) b :
  bind o f = Ret b -> exists a, o = Ret a /\ f a = Ret b.
Proof. destruct o as [a | msg]; [eauto | discriminate]. Qed.

(** From a map that is not nil the walk puts under [b] what [SetPath]
    with the other keys makes of the value found there. *)
Lemma SetPath_walk_Some m b rest val :
  SetPath_walk (Some m) b rest val =
  bind (SetPath rest val (mkGson (default Nil (m !! b))))
    (fun c => Ret (<[b := data c]> m)).
Proof.
  destruct rest as [| b' rest]; [done |].
  simpl. destruct (m !! b) as [[] |]; simpl; try done.
  all: by match goal with |- context [SetPath_walk ?c ?k ?r ?v] =>
            destruct (SetPath_walk c k r v) end.
Qed.

Lemma SetPath_cons_nil b rest val self :
  data self = NilMap -> SetPath (b :: rest) val self = Panic nil_map_panic.
Proof. destruct self as [d]. simpl. intros ->. by destruct rest. Qed.

Lemma SetPath_cons b rest val self :
  data self <> NilMap ->
  SetPath (b :: rest) val self =
  bind (SetPath rest val (Get b self))
    (fun c => Ret (mkGson (Map (<[b := data c]> (default ∅ (Map_ self).1))))).
Proof.
  intros Hnil. destruct self as [d]. unfold SetPath at 1. simpl in Hnil.
  assert (E : forall m, mkGson (default Nil (m !! b)) = Get b (mkGson (Map m))).
  { intros m. unfold Get. simpl. by destruct (m !! b). }
  destruct d; try done; cbn [data]; rewrite SetPath_walk_Some.
  all: try (change (default Nil (∅ !! b)) with Nil).
  all: rewrite ?E; unfold Get, Map_; simpl.
  all: by match goal with |- context [SetPath ?r ?v ?g] =>
            destruct (SetPath r v g) end.
Qed.

Lemma SetPath_cons_Ret b rest val self g' :
  SetPath (b :: rest) val self = Ret g' ->
  data self <> NilMap
  /\ exists c, SetPath rest val (Get b self) = Ret c
               /\ g' = mkGson (Map (<[b := data c]> (default ∅ (Map_ self).1))).
Proof.
  intros H.
  assert (Hnil : data self <> NilMap).
  { intros E. by rewrite (SetPath_cons_nil _ _ _ _ E) in H. }
  split; [done |]. rewrite SetPath_cons in H by done.
  apply bind_Ret_inv in H as (c & Hc & [= <-]). eauto.
Qed.

(** [SetPath] panics exactly when the root, or what the path reads
    before one of its keys, is the nil map. *)
Lemma SetPath_outcome branch val : forall self,
  match SetPath branch val self with
  | Ret _ =>
      forall pre k post,
        branch = pre ++ k :: post -> data (GetPath pre self) <> NilMap
  | Panic msg =>
      msg = nil_map_panic
      /\ exists pre k post,
           branch = pre ++ k :: post /\ data (GetPath pre self) = NilMap
  end.
Proof.
  induction branch as [| b rest IH]; intros self.
  - simpl. intros [] ? ? [=].
  - destruct (SetPath (b :: rest) val self) as [g' | msg] eqn:E.
    + apply SetPath_cons_Ret in E as (Hnil & c & Hc & _).
      specialize (IH (Get b self)). rewrite Hc in IH.
      intros [| p pre] k post Hsplit; [done |].
      injection Hsplit as <- ->. simpl. by eapply IH.
    + assert (Hcase : data self = NilMap \/ data self <> NilMap)
        by (destruct self as [[]]; auto).
      destruct Hcase as [Hnil | Hnil].
      * rewrite SetPath_cons_nil in E by done.
        injection E as <-. split; [done |]. by exists [], b, rest.
      * rewrite SetPath_cons in E by done.
        specialize (IH (Get b self)).
        destruct (SetPath rest val (Get b self)) as [c | msg']; [discriminate E |].
        simpl in E. injection E as <-.
        destruct IH as (-> & pre & k & post & -> & Hn).
        split; [done |]. by exists (b :: pre), k, post.
Qed.

Lemma SetPath_returns branch val self :
  (forall pre k post,
     branch = pre ++ k :: post -> data (GetPath pre self) <> NilMap) ->
  exists g', SetPath branch val self = Ret g'.
Proof.
  intros H. pose proof (SetPath_outcome branch val self) as Ho.
  destruct (SetPath branch val self) as [g' | msg]; [eauto |].
  destruct Ho as (_ & pre & k & post & E & Hn). by destruct (H pre k post E).
Qed.

(** After [SetPath] returns, the first part of the path leads to what
    [SetPath] with the rest of the path makes of the value that was
    there. *)
Lemma GetPath_SetPath_cat pre post val : forall self g',
  SetPath (pre ++ post) val self = Ret g' ->
  Ret (GetPath pre g') = SetPath post val (GetPath pre self).
Proof.
  induction pre as [| p pre IH]; intros self g' H; [done |].
  change ((p :: pre) ++ post) with (p :: (pre ++ post)) in H.
  apply SetPath_cons_Ret in H as (_ & c & Hc & ->).
  simpl GetPath. rewrite <- (IH _ _ Hc). do 2 f_equal.
  unfold Get. simpl. rewrite lookup_insert_eq. by destruct c.
Qed.

(** Of two [SetPath]s with the same path the second wins; when the
    first panics so does the second call alone. *)
Lemma SetPath_overwrite branch v v' : forall self,
  bind (SetPath branch v self) (SetPath branch v') = SetPath branch v' self.
Proof.
  induction branch as [| b rest IH]; intros self; [done |].
  destruct self as [d].
  assert (Hcase : d = NilMap \/ d <> NilMap) by (destruct d; auto).
  destruct Hcase as [-> | Hnil]; [by rewrite !SetPath_cons_nil |].
  rewrite (SetPath_cons b rest v) by done.
  rewrite (SetPath_cons b rest v' (mkGson d)) by done.
  rewrite <- (IH (Get b (mkGson d))).
  destruct (SetPath rest v (Get b (mkGson d))) as [c | msg]; [| done].
  cbn [bind]. rewrite SetPath_cons by done.
  replace (Get b (mkGson (Map (<[b := data c]> (default ∅ (Map_ (mkGson d)).1)))))
    with c by (unfold Get; simpl; rewrite lookup_insert_eq; by destruct c).
  destruct (SetPath rest v' c) as [c' | msg]; [| done].
  simpl. by rewrite insert_insert_eq.
Qed.

(** C5, as the code has it: [SetPath] with no key replaces the root
    with the value.  With keys, a root that is neither a map nor the
    nil map is first replaced with a new map, and one key binds the
    value in the root map.  When neither the root nor what the path
    reads before one of its keys is the nil map, [SetPath] returns, and
    then every proper prefix of the path leads to a map, the whole path
    leads to the value, and a prefix leads to what [SetPath] with the
    rest of the path makes of the value that was there, a new map in
    place of one that is no map.  On [{"a": [1,2,3]}] the path [a, b]
    with 7 gives [{"a": {"b": 7}}], and on an empty object the path
    [a, b, c] with 42 is read back by [GetPath]. *)
Theorem SetPath_creates_path :
  (forall val self, SetPath [] val self = Ret (mkGson val))
  /\ (forall b rest val self,
        (forall m, data self <> Map m) -> data self <> NilMap ->
        SetPath (b :: rest) val self = SetPath (b :: rest) val New)
  /\ (forall b val m,
        SetPath [b] val (mkGson (Map m)) = Ret (mkGson (Map (<[b := val]> m))))
  /\ (forall branch val self,
        (forall pre k post,
           branch = pre ++ k :: post -> data (GetPath pre self) <> NilMap) ->
        exists g',
          SetPath branch val self = Ret g'
          /\ (forall pre k post,
                branch = pre ++ k :: post ->
                exists m, data (GetPath pre g') = Map m)
          /\ GetPath branch g' = mkGson val
          /\ (forall pre post,
                branch = pre ++ post ->
                Ret (GetPath pre g') = SetPath post val (GetPath pre self)))
  /\ SetPath ["a"; "b"] (HInt Kint 7)
       (mkGson (Map {["a" := Array [Number "1"; Number "2"; Number "3"]]}))
     = Ret (mkGson (Map {["a" := Map {["b" := HInt Kint 7]}]}))
  /\ bind (SetPath ["a"; "b"; "c"] (HInt Kint 42) New)
       (fun v => Ret (GetPath ["a"; "b"; "c"] v))
     = Ret (mkGson (HInt Kint 42))
  /\ bind (SetPath ["a"; "b"; "c"] (HInt Kint 42) New)
       (fun v => Ret (GetPath ["a"; "b"] v))
     = Ret (mkGson (Map {["c" := HInt Kint 42]})).
Proof.
  split; [done |].
  split.
  { intros b rest val [d] H Hnil. simpl in *.
    destruct d; try done. by destruct (H m). }
  split; [done |].
  split.
  { intros branch val self Hpath.
    destruct (SetPath_returns branch val self Hpath) as [g' Hg].
    exists g'. split; [done |]. split; [| split].
    - intros pre k post ->.
      pose proof (GetPath_SetPath_cat _ _ _ _ _ Hg) as Hd.
      symmetry in Hd. simpl in Hd.
      apply bind_Ret_inv in Hd as (m & _ & [= <-]). eauto.
    - rewrite <- (app_nil_r branch) in Hg.
      pose proof (GetPath_SetPath_cat _ _ _ _ _ Hg) as Hd.
      simpl in Hd. by injection Hd.
    - intros pre post ->. by apply GetPath_SetPath_cat. }
  split; [| split]; by vm_compute.
Qed.

Lemma SetPath_creates_path_witness :
  SetPath ["a"; "b"] (Bool true) (mkGson (Array [Nil]))
    = SetPath ["a"; "b"] (Bool true) New
  /\ exists g',
       SetPath ["a"; "b"] (Bool true) (mkGson (Map {["a" := Str "s"]})) = Ret g'
       /\ (forall pre k post,
             ["a"; "b"] = pre ++ k :: post ->
             exists m, data (GetPath pre g') = Map m)
       /\ GetPath ["a"; "b"] g' = mkGson (Bool true)
       /\ (forall pre post,
             ["a"; "b"] = pre ++ post ->
             Ret (GetPath pre g')
             = SetPath post (Bool true)
                 (GetPath pre (mkGson (Map {["a" := Str "s"]})))).
Proof.
  split.
  - apply (proj1 (proj2 SetPath_creates_path) "a" ["b"] (Bool true)
             (mkGson (Array [Nil]))).
    + intros m. simpl. discriminate.
    + simpl. discriminate.
  - apply (proj1 (proj2 (proj2 (proj2 SetPath_creates_path))) ["a"; "b"]
             (Bool true) (mkGson (Map {["a" := Str "s"]}))).
    intros [| p [| p' pre]] k post E.
    + simpl. discriminate.
    + injection E as <- _ _. vm_compute. discriminate.
    + destruct pre; discriminate E.
Defined.

(** C5 as the claim states it fails on the nil map: [Map] returns it
    with no error, so it is an object for the code, and [SetPath] keeps
    it at the root and under a key of the path, where the write that
    follows panics and no key is bound. *)
Lemma SetPath_nil_map_panics :
  Map_ (mkGson NilMap) = (None, None)
  /\ SetPath ["a"] (HInt Kint 7) (mkGson NilMap) = Panic nil_map_panic
  /\ SetPath ["a"; "b"] (HInt Kint 7) (mkGson (Map {["a" := NilMap]}))
     = Panic nil_map_panic.
Proof. split; [| split]; by vm_compute. Qed.

(** C7: on every tree, a second [SetPath] with the same path and value
    changes nothing: the first call leaves a map at every key but the
    last, so the second walk keeps them all and binds the last key to
    the same value again.  When the first call panics there is no
    second one. *)
Theorem SetPath_idempotent (branch : list string) (val : value) (self : Gson) :
  bind (SetPath branch val self) (SetPath branch val) = SetPath branch val self.
Proof. apply SetPath_overwrite. Qed.

(** ** [CheckGet], [Set] and [Del] *)

(** C6: [CheckGet] reports [true], with the child, exactly when the
    value is a map that holds the key; a value that is not a map and a
    map without the key both give [false]; a key bound to the [nil]
    value gives [true]. *)
Theorem CheckGet_found_iff_map_holds_key (key : string) (self : Gson) :
  (snd (CheckGet key self) = true <->
   exists m, data self = Map m /\ is_Some (m !! key))
  /\ (forall m child,
        data self = Map m -> m !! key = Some child ->
        CheckGet key self = (Some (mkGson child), true))
  /\ ((forall m, data self <> Map m) -> CheckGet key self = (None, false))
  /\ (forall m,
        data self = Map m -> m !! key = None -> CheckGet key self = (None, false))
  /\ CheckGet "k" (mkGson (Map {["k" := Nil]})) = (Some (mkGson Nil), true).
Proof.
  destruct self as [d]. unfold CheckGet, Map_. simpl.
  split; [| split; [| split; [| split]]].
  - destruct d; simpl;
      try (split; [discriminate | intros (m' & [=] & _)]).
    destruct (m !! key) as [child |] eqn:E; simpl.
    + split; [| done]. intros _. exists m. by rewrite E.
    + split; [discriminate |]. intros (m' & [= <-] & [x Hx]). congruence.
  - intros m child -> ->. reflexivity.
  - intros H. destruct d; try reflexivity. by destruct (H m).
  - intros m -> ->. reflexivity.
  - by vm_compute.
Qed.

Lemma CheckGet_found_iff_map_holds_key_witness :
  CheckGet "k" (mkGson (Map {["k" := Bool true]})) = (Some (mkGson (Bool true)), true).
Proof.
  apply (proj1 (proj2 (CheckGet_found_iff_map_holds_key "k"
                         (mkGson (Map {["k" := Bool true]}))))
           {["k" := Bool true]} (Bool true)).
  - reflexivity.
  - by vm_compute.
Defined.

(** C9, as the code has it: on a value that is neither a map nor the
    nil map [Set] returns and changes nothing, and [Del] changes
    nothing on any value that is not a map, the nil map included; on a
    map [Set] binds the key to the value, over any earlier binding, and
    [Del] removes the key, which changes nothing when the key is
    absent. *)
Theorem Set_Del_only_on_maps (key : string) (val : value) (self : Gson) :
  ((forall m, data self <> Map m) -> data self <> NilMap ->
   Set_ key val self = Ret self)
  /\ ((forall m, data self <> Map m) -> Del key self = self)
  /\ (forall m,
        data self = Map m ->
        Set_ key val self = Ret (mkGson (Map (<[key := val]> m)))
        /\ Del key self = mkGson (Map (delete key m))
        /\ (m !! key = None -> Del key self = self)).
Proof.
  destruct self as [d]. unfold Set_, Del, Map_. simpl.
  split; [| split].
  - intros H Hnil. destruct d; try done. by destruct (H m).
  - intros H. destruct d; try done. by destruct (H m).
  - intros m ->. split; [done |]. split; [done |].
    intros Hm. by rewrite delete_id.
Qed.

Lemma Set_Del_only_on_maps_witness :
  Set_ "k" (Bool true) (mkGson (Str "s")) = Ret (mkGson (Str "s"))
  /\ Del "k" (mkGson (Str "s")) = mkGson (Str "s")
  /\ Set_ "k" (Bool true) (mkGson (Map {["k" := Nil]}))
     = Ret (mkGson (Map (<["k" := Bool true]> {["k" := Nil]}))).
Proof.
  split; [| split].
  - apply (proj1 (Set_Del_only_on_maps "k" (Bool true) (mkGson (Str "s")))).
    + intros m. simpl. discriminate.
    + simpl. discriminate.
  - apply (proj1 (proj2 (Set_Del_only_on_maps "k" (Bool true) (mkGson (Str "s"))))).
    intros m. simpl. discriminate.
  - apply (proj2 (proj2 (Set_Del_only_on_maps "k" (Bool true)
                           (mkGson (Map {["k" := Nil]}))))
             {["k" := Nil]}).
    reflexivity.
Defined.

(** C9 as the claim states it fails on the nil map: [Map] returns it
    with no error, so it is an object for the code, and the assignment
    of [Set] to it panics: the key is not bound and the failure is not
    silent. *)
Lemma Set_nil_map_panics :
  Map_ (mkGson NilMap) = (None, None)
  /\ Set_ "k" (Bool true) (mkGson NilMap) = Panic nil_map_panic.
Proof. split; reflexivity. Qed.

(** C10: when [CheckGet] reports [false] its handle is [nil], and a
    method called through it panics; [Get] on the same value and key
    returns a handle on the [nil] value, and a further [Get] through
    that handle returns such a handle again. *)
Theorem CheckGet_failure_is_nil_handle (key key' : string) (self : Gson) :
  snd (CheckGet key self) = false ->
  fst (CheckGet key self) = None
  /\ (exists msg, call (fst (CheckGet key self)) (Get key') = Panic msg)
  /\ Get key self = mkGson Nil
  /\ call (Some (Get key self)) (Get key') = Ret (mkGson Nil).
Proof.
  destruct self as [d]. unfold CheckGet, Get, Map_. simpl.
  destruct d; simpl; try solve [intros _; repeat split; eauto].
  destruct (m !! key); simpl; [discriminate |].
  intros _; repeat split; eauto.
Qed.

Lemma CheckGet_failure_is_nil_handle_witness :
  fst (CheckGet "a" (mkGson (Array []))) = None
  /\ (exists msg, call (fst (CheckGet "a" (mkGson (Array [])))) (Get "b") = Panic msg)
  /\ Get "a" (mkGson (Array [])) = mkGson Nil
  /\ call (Some (Get "a" (mkGson (Array [])))) (Get "b") = Ret (mkGson Nil).
Proof.
  apply (CheckGet_failure_is_nil_handle "a" "b" (mkGson (Array []))).
  reflexivity.
Defined.

(** * Further properties of the code *)

(** ** [Set], [Del], [Get] and [CheckGet] together *)

(** [Set] on a map returns, and what it wrote [Get] and [CheckGet]
    read back. *)
Theorem Get_Set_same (key : string) (val : value) (m : gmap string value) :
  exists g',
    Set_ key val (mkGson (Map m)) = Ret g'
    /\ Get key g' = mkGson val
    /\ CheckGet key g' = (Some (mkGson val), true).
Proof.
  eexists. split; [reflexivity |].
  unfold Get, CheckGet, Map_. simpl. by rewrite lookup_insert_eq.
Qed.

(** [Set] on one key leaves every other key as it reads, on any value
    on which it returns; it panics on the nil map only. *)
Theorem Get_Set_other (key key' : string) (val : value) (self : Gson) :
  key <> key' ->
  match Set_ key val self with
  | Ret g' =>
      Get key' g' = Get key' self /\ CheckGet key' g' = CheckGet key' self
  | Panic _ => data self = NilMap
  end.
Proof.
  intros Hne. destruct self as [d]. unfold Get, CheckGet, Set_, Map_. simpl.
  destruct d; simpl; try done. by rewrite lookup_insert_ne.
Qed.

Lemma Get_Set_other_witness :
  match Set_ "a" (Bool true) (mkGson (Map {["b" := Str "x"]})) with
  | Ret g' =>
      Get "b" g' = Get "b" (mkGson (Map {["b" := Str "x"]}))
      /\ CheckGet "b" g' = CheckGet "b" (mkGson (Map {["b" := Str "x"]}))
  | Panic _ => Map {["b" := Str "x"]} = NilMap
  end.
Proof.
  apply (Get_Set_other "a" "b" (Bool true) (mkGson (Map {["b" := Str "x"]}))).
  discriminate.
Defined.

(** After [Del] the key is not found, on any value, and every other key
    reads as before. *)
Theorem Get_Del (key : string) (self : Gson) :
  Get key (Del key self) = mkGson Nil
  /\ CheckGet key (Del key self) = (None, false)
  /\ (forall key', key <> key' ->
        Get key' (Del key self) = Get key' self
        /\ CheckGet key' (Del key self) = CheckGet key' self).
Proof.
  destruct self as [d]. unfold Get, CheckGet, Del, Map_.
  destruct d; simpl; try done.
  rewrite lookup_delete_eq. repeat split; try done.
  all: by rewrite lookup_delete_ne.
Qed.

Lemma Get_Del_witness :
  Get "b" (Del "a" (mkGson (Map {["a" := Nil; "b" := Str "x"]})))
    = Get "b" (mkGson (Map {["a" := Nil; "b" := Str "x"]}))
  /\ CheckGet "b" (Del "a" (mkGson (Map {["a" := Nil; "b" := Str "x"]})))
    = CheckGet "b" (mkGson (Map {["a" := Nil; "b" := Str "x"]})).
Proof.
  apply (proj2 (proj2 (Get_Del "a" (mkGson (Map {["a" := Nil; "b" := Str "x"]})))) "b").
  discriminate.
Defined.

(** The last [Set] on a key wins, and [Set]s on two keys can be done in
    either order; a panic of the first call is the panic of the pair. *)
Theorem Set_Set (key key' : string) (v v' : value) (self : Gson) :
  bind (Set_ key v self) (Set_ key v') = Set_ key v' self
  /\ (key <> key' ->
      bind (Set_ key' v' self) (Set_ key v)
      = bind (Set_ key v self) (Set_ key' v')).
Proof.
  destruct self as [d]. unfold Set_, Map_. destruct d; simpl; try done.
  split.
  - by rewrite insert_insert_eq.
  - intros Hne. by rewrite insert_insert_ne.
Qed.

Lemma Set_Set_witness :
  bind (Set_ "b" Nil New) (Set_ "a" (Bool true))
  = bind (Set_ "a" (Bool true) New) (Set_ "b" Nil).
Proof.
  apply (proj2 (Set_Set "a" "b" (Bool true) Nil New)). discriminate.
Defined.

(** [Del] undoes a [Set] on a key the map did not hold; a [Set] makes
    an earlier [Del] of its key invisible; a second [Del] does nothing;
    [Set] and [Del] on two keys can be done in either order. *)
Theorem Del_Set (key : string) (val : value) (self : Gson) :
  (forall m, data self = Map m -> m !! key = None ->
     bind (Set_ key val self) (fun g => Ret (Del key g)) = Ret self)
  /\ Set_ key val (Del key self) = Set_ key val self
  /\ Del key (Del key self) = Del key self
  /\ (forall key', key <> key' ->
        Set_ key val (Del key' self)
        = bind (Set_ key val self) (fun g => Ret (Del key' g))).
Proof.
  destruct self as [d]. unfold Set_, Del, Map_.
  destruct d; simpl; try by (repeat split; try done; intros m' [=]).
  split; [| split; [| split]].
  - intros m' [= <-] Hm. by rewrite delete_insert_id.
  - by rewrite insert_delete_eq.
  - by rewrite delete_delete_eq.
  - intros key' Hne. by rewrite delete_insert_ne.
Qed.

Lemma Del_Set_witness :
  bind (Set_ "a" (Bool true) (mkGson (Map {["b" := Nil]})))
    (fun g => Ret (Del "a" g))
    = Ret (mkGson (Map {["b" := Nil]}))
  /\ Set_ "a" (Bool true) (Del "b" (mkGson (Map {["b" := Nil]})))
    = bind (Set_ "a" (Bool true) (mkGson (Map {["b" := Nil]})))
        (fun g => Ret (Del "b" g)).
Proof.
  split.
  - apply (proj1 (Del_Set "a" (Bool true) (mkGson (Map {["b" := Nil]})))
             {["b" := Nil]}).
    + reflexivity.
    + by vm_compute.
  - apply (proj2 (proj2 (proj2 (Del_Set "a" (Bool true)
                                  (mkGson (Map {["b" := Nil]}))))) "b").
    discriminate.
Defined.

(** [Get] is [CheckGet] with the [nil] value in place of a failure, so
    [Get] reads a missing key and a key bound to [nil] alike, while
    [CheckGet] tells them apart. *)
Theorem Get_forgets_found (key : string) (self : Gson) :
  Get key self = default (mkGson Nil) (CheckGet key self).1
  /\ (forall m, m !! key = None ->
        Get key (mkGson (Map m)) = Get key (mkGson (Map (<[key := Nil]> m)))
        /\ (CheckGet key (mkGson (Map m))).2 = false
        /\ (CheckGet key (mkGson (Map (<[key := Nil]> m)))).2 = true).
Proof.
  destruct self as [d]. unfold Get, CheckGet, Map_. split.
  - destruct d; simpl; try done. by destruct (m !! key).
  - intros m Hm. simpl. by rewrite Hm, lookup_insert_eq.
Qed.

Lemma Get_forgets_found_witness :
  Get "k" (mkGson (Map ∅)) = Get "k" (mkGson (Map (<["k" := Nil]> ∅)))
  /\ (CheckGet "k" (mkGson (Map ∅))).2 = false
  /\ (CheckGet "k" (mkGson (Map (<["k" := Nil]> ∅)))).2 = true.
Proof.
  apply (proj2 (Get_forgets_found "k" New) ∅). by vm_compute.
Defined.

(** ** [GetPath] *)

Lemma GetPath_cat p q : forall self,
  GetPath (p ++ q) self = GetPath q (GetPath p self).
Proof.
  induction p as [| k p IH]; intros self; [done |].
  simpl. apply IH.
Qed.

(** Walking a path is walking its first part and then the rest. *)
Theorem GetPath_app (p q : list string) (self : Gson) :
  GetPath (p ++ q) self = GetPath q (GetPath p self).
Proof. apply GetPath_cat. Qed.

Lemma GetPath_Nil branch : GetPath branch (mkGson Nil) = mkGson Nil.
Proof. induction branch as [| k branch IH]; [done |]. simpl. apply IH. Qed.

(** Once the walk meets a value that is not a map, or a map without
    the next key, every longer path reads the [nil] value. *)
Theorem GetPath_short_circuit (k : string) (branch : list string) (self : Gson) :
  ((forall m, data self <> Map m) -> GetPath (k :: branch) self = mkGson Nil)
  /\ (forall m, data self = Map m -> m !! k = None ->
        GetPath (k :: branch) self = mkGson Nil).
Proof.
  destruct self as [d]. simpl. unfold Get, Map_. simpl. split.
  - intros H. destruct d; try apply GetPath_Nil. by destruct (H m).
  - intros m -> ->. apply GetPath_Nil.
Qed.

Lemma GetPath_short_circuit_witness :
  GetPath ["a"; "b"] (mkGson (Str "s")) = mkGson Nil
  /\ GetPath ["a"; "b"] (mkGson (Map {["c" := Nil]})) = mkGson Nil.
Proof.
  split.
  - apply (proj1 (GetPath_short_circuit "a" ["b"] (mkGson (Str "s")))).
    intros m. simpl. discriminate.
  - apply (proj2 (GetPath_short_circuit "a" ["b"] (mkGson (Map {["c" := Nil]})))
             {["c" := Nil]}).
    + reflexivity.
    + by vm_compute.
Defined.

(** ** [SetPath] *)

(** [SetPath] with one key does what [Set] does on a map, and panics
    like [Set] on the nil map; on any other value [Set] does nothing
    while [SetPath] puts a one-key map in its place. *)
Theorem SetPath_single_key (key : string) (val : value) (self : Gson) :
  (forall m, data self = Map m -> SetPath [key] val self = Set_ key val self)
  /\ (data self = NilMap -> SetPath [key] val self = Set_ key val self)
  /\ ((forall m, data self <> Map m) -> data self <> NilMap ->
      SetPath [key] val self = Ret (mkGson (Map {[key := val]}))
      /\ Set_ key val self = Ret self).
Proof.
  destruct self as [d]. unfold SetPath, Set_, Map_. simpl.
  split; [| split].
  - by intros m ->.
  - by intros ->.
  - intros H Hnil. destruct d; try done. by destruct (H m).
Qed.

Lemma SetPath_single_key_witness :
  SetPath ["k"] (Bool true) New = Set_ "k" (Bool true) New
  /\ SetPath ["k"] (Bool true) (mkGson NilMap)
     = Set_ "k" (Bool true) (mkGson NilMap)
  /\ SetPath ["k"] (Bool true) (mkGson (Str "s"))
     = Ret (mkGson (Map {["k" := Bool true]}))
  /\ Set_ "k" (Bool true) (mkGson (Str "s")) = Ret (mkGson (Str "s")).
Proof.
  split; [| split].
  - by apply (proj1 (SetPath_single_key "k" (Bool true) New) ∅).
  - by apply (proj1 (proj2 (SetPath_single_key "k" (Bool true) (mkGson NilMap)))).
  - apply (proj2 (proj2 (SetPath_single_key "k" (Bool true) (mkGson (Str "s"))))).
    + intros m. simpl. discriminate.
    + simpl. discriminate.
Defined.

(** Of two [SetPath]s with the same path the second wins; a panic of
    the first call is the panic of the second call alone. *)
Theorem SetPath_last_write_wins (branch : list string) (v v' : value) (self : Gson) :
  bind (SetPath branch v self) (SetPath branch v') = SetPath branch v' self.
Proof. apply SetPath_overwrite. Qed.

(** After [SetPath] returns, reading along the first part of the
    written path gives what [SetPath] with the rest of the path makes
    of the value that was there.  [SetPath] panics only when the root,
    or what the path reads before one of its keys, is the nil map. *)
Theorem GetPath_SetPath_descend (pre post : list string) (val : value) (self : Gson) :
  match SetPath (pre ++ post) val self with
  | Ret g' => Ret (GetPath pre g') = SetPath post val (GetPath pre self)
  | Panic _ =>
      exists p k q,
        pre ++ post = p ++ k :: q /\ data (GetPath p self) = NilMap
  end.
Proof.
  pose proof (SetPath_outcome (pre ++ post) val self) as Ho.
  destruct (SetPath (pre ++ post) val self) as [g' | msg] eqn:E.
  - by apply GetPath_SetPath_cat.
  - by destruct Ho as [_ Ho].
Qed.

(** ** [GetIndex] on the indices the guard covers *)

Lemma GetIndex_lookup idx self :
  0 <= idx ->
  GetIndex idx self =
  Ret (mkGson (default Nil (default [] (Array_ self).1 !! Z.to_nat idx))).
Proof.
  intros Hidx. destruct self as [d].
  destruct d; try done. unfold Array_. simpl.
  destruct (a !! Z.to_nat idx) as [x |] eqn:E.
  - by apply GetIndex_in_range.
  - apply GetIndex_beyond. apply lookup_ge_None in E. lia.
Qed.

(** With an index that is not negative [GetIndex] never panics: it
    returns the element at the index, and the [nil] value when the
    array is shorter or the value is not an array. *)
Theorem GetIndex_nonnegative (idx : Z) (self : Gson) :
  0 <= idx ->
  GetIndex idx self =
  Ret (mkGson (default Nil (default [] (Array_ self).1 !! Z.to_nat idx))).
Proof. apply GetIndex_lookup. Qed.

Lemma GetIndex_nonnegative_witness :
  GetIndex 1 (mkGson (Array [Str "a"; Str "b"])) = Ret (mkGson (Str "b")).
Proof.
  apply (GetIndex_nonnegative 1 (mkGson (Array [Str "a"; Str "b"]))). lia.
Defined.

(** [GetIndex] panics exactly on a negative index into an array, the
    empty array included. *)
Theorem GetIndex_panics_iff (idx : Z) (self : Gson) :
  (exists msg, GetIndex idx self = Panic msg) <->
  idx < 0 /\ exists a, data self = Array a.
Proof.
  split.
  - intros [msg H]. destruct (Z_lt_ge_dec idx 0) as [Hneg | Hpos].
    + split; [done |]. destruct self as [d].
      destruct d; try discriminate H. eauto.
    + rewrite GetIndex_lookup in H by lia. discriminate H.
  - intros [Hneg [a Ha]]. destruct self as [d]. simpl in Ha. subst d.
    eexists. by apply GetIndex_negative.
Qed.

(** ** [StringArray] and [Bytes] *)

Lemma mapM_string_or_nil (l : list (option string)) :
  mapM string_or_nil (from_option Str Nil <$> l) = Some (default "" <$> l).
Proof.
  apply mapM_Some_2.
  induction l as [| o l IH]; simpl; constructor; [by destruct o | done].
Qed.

(** On an array of strings and [nil]s [StringArray] returns as many
    strings in the same order, the empty string for each [nil]; on a
    value that is not an array it returns the error of [Array]. *)
Theorem StringArray_strings :
  (forall l : list (option string),
     StringArray (mkGson (Array (from_option Str Nil <$> l)))
     = (Some (default "" <$> l), None))
  /\ (forall self, (forall a, data self <> Array a) ->
        StringArray self
        = (None, Some (ErrorNew "type assertion to []interface{} failed"))).
Proof.
  split.
  - intros l. by rewrite StringArray_Array_no_error, mapM_string_or_nil.
  - intros [d] H. destruct d; try done. by destruct (H a).
Qed.

Lemma StringArray_strings_witness :
  StringArray (mkGson (Bool true))
  = (None, Some (ErrorNew "type assertion to []interface{} failed")).
Proof.
  apply (proj2 StringArray_strings (mkGson (Bool true))).
  intros a. simpl. discriminate.
Defined.

(** [Bytes] succeeds exactly when [String] does, and returns the bytes
    of that string. *)
Theorem Bytes_iff_String (self : Gson) :
  ((Bytes self).2 = None <-> (String_ self).2 = None)
  /\ (forall s,
        String_ self = (s, None) <->
        Bytes self = (Some (list_ascii_of_string s), None)).
Proof.
  destruct self as [d]. unfold Bytes, String_.
  destruct d; simpl; try (split; [done |]; intros s'; split; discriminate).
  split; [done |]. intros s'. split.
  - by intros [= ->].
  - intros [= H]. f_equal.
    rewrite <- (string_of_list_ascii_of_string s), H.
    apply string_of_list_ascii_of_string.
Qed.

(** ** Numbers out of range *)

Lemma int64_range z : - 2 ^ 63 <= int64 z < 2 ^ 63.
Proof.
  unfold int64. pose proof (Z.mod_pos_bound (z + 2 ^ 63) (2 ^ 64)). lia.
Qed.

(** On digits whose value, continued from [n], reaches [2^64] the loop
    stops with a range error and [maxVal]. *)
Lemma ParseUint_loop_over s0 s : forall n r,
  0 <= n < 2 ^ 64 ->
  spec_digits n s = Some r -> 2 ^ 64 <= r ->
  strconv.ParseUint_loop s0 s n
  = (2 ^ 64 - 1, Some (NumError "ParseUint" s0 ErrRange)).
Proof.
  induction s as [| ch s IH]; intros n r Hn; simpl.
  - intros [= <-]. lia.
  - pose proof (digit_spec ch) as Hd.
    destruct (strconv.digit (Z.of_N (N_of_ascii ch))) as [d |];
      [| rewrite Hd; discriminate].
    destruct (d >=? strconv.base); [rewrite Hd; discriminate |].
    destruct Hd as [-> Hd].
    rewrite cutoff_eq, maxVal_eq. unfold strconv.base.
    destruct (n >=? 1844674407370955162) eqn:Hc; [done |].
    rewrite Z.geb_leb in Hc. apply Z.leb_gt in Hc.
    rewrite (uint64_small (n * 10)) by lia.
    destruct (Z_lt_ge_dec (n * 10 + d) (2 ^ 64)) as [Hfit | Hover].
    + rewrite (uint64_small (n * 10 + d)) by lia.
      replace ((n * 10 + d <? n * 10) || (n * 10 + d >? 2 ^ 64 - 1)) with false.
      * apply IH. lia.
      * symmetry. apply orb_false_intro;
          [apply Z.ltb_ge | rewrite Z.gtb_ltb; apply Z.ltb_ge]; lia.
    + rewrite (uint64_wrap (n * 10 + d)) by lia.
      replace (n * 10 + d - 2 ^ 64 <? n * 10) with true
        by (symmetry; apply Z.ltb_lt; lia).
      done.
Qed.

(** [ParseUint] on decimal digits: the value, or [maxVal] and a range
    error from [2^64] on. *)
Lemma ParseUint_digits s v :
  spec_decimal_nat s = Some v ->
  0 <= v
  /\ strconv.ParseUint s =
     if 2 ^ 64 <=? v then (2 ^ 64 - 1, Some (NumError "ParseUint" s ErrRange))
     else (v, None).
Proof.
  intros Hv.
  assert (Hpos : 0 <= v).
  { destruct s; [discriminate |]. by apply spec_digits_ge in Hv. }
  split; [done |].
  destruct (Z.leb_spec (2 ^ 64) v).
  - destruct s; [discriminate |].
    by apply (ParseUint_loop_over _ _ 0 v).
  - by apply ParseUint_spec.
Qed.

Lemma ParseInt_digits s v :
  spec_decimal_int s = Some v ->
  strconv.ParseInt s =
  if v <? - 2 ^ 63 then (- 2 ^ 63, Some (NumError "ParseInt" s ErrRange))
  else if 2 ^ 63 <=? v then (2 ^ 63 - 1, Some (NumError "ParseInt" s ErrRange))
  else (v, None).
Proof.
  assert (Hmax : int64 (2 ^ 63 - 1) = 2 ^ 63 - 1) by reflexivity.
  assert (Hmin : int64 (- int64 (2 ^ 63)) = - 2 ^ 63) by reflexivity.
  destruct s as [| ch s1]; [discriminate |].
  rewrite spec_decimal_int_unfold. unfold strconv.ParseInt.
  destruct (Ascii.eqb ch "+") eqn:Hplus; [| destruct (Ascii.eqb ch "-") eqn:Hminus].
  all: cbv zeta iota beta; rewrite sign_cutoff, Hmax, Hmin.
  - intros Hv. apply ParseUint_digits in Hv as [Hpos ->].
    destruct (Z.ltb_spec v (- 2 ^ 63)); [lia |].
    destruct (Z.leb_spec (2 ^ 64) v); cbv zeta iota beta;
      rewrite ?Z.geb_leb, ?Z.gtb_ltb; cbn [negb andb].
    + destruct (Z.leb_spec (2 ^ 63) v); [| lia].
      destruct (Z.leb_spec (2 ^ 63) (2 ^ 64 - 1)); [done | lia].
    + destruct (Z.leb_spec (2 ^ 63) v); [done |].
      by rewrite int64_small by lia.
  - destruct (spec_decimal_nat s1) as [u |] eqn:Hu; [| discriminate].
    intros [= <-]. apply ParseUint_digits in Hu as [Hpos ->].
    destruct (Z.leb_spec (2 ^ 63) (- u)); [lia |].
    destruct (Z.leb_spec (2 ^ 64) u); cbv zeta iota beta;
      rewrite ?Z.geb_leb, ?Z.gtb_ltb; cbn [negb andb].
    + destruct (Z.ltb_spec (- u) (- 2 ^ 63)); [| lia].
      destruct (Z.ltb_spec (2 ^ 63) (2 ^ 64 - 1)); [done | lia].
    + destruct (Z.ltb_spec (2 ^ 63) u), (Z.ltb_spec (- u) (- 2 ^ 63)); try lia; [done |].
      f_equal. destruct (Z.eq_dec u (2 ^ 63)) as [-> | Hne]; [done |].
      rewrite (int64_small u) by lia. apply int64_small. lia.
  - intros Hv. apply ParseUint_digits in Hv as [Hpos ->].
    destruct (Z.ltb_spec v (- 2 ^ 63)); [lia |].
    destruct (Z.leb_spec (2 ^ 64) v); cbv zeta iota beta;
      rewrite ?Z.geb_leb, ?Z.gtb_ltb; cbn [negb andb].
    + destruct (Z.leb_spec (2 ^ 63) v); [| lia].
      destruct (Z.leb_spec (2 ^ 63) (2 ^ 64 - 1)); [done | lia].
    + destruct (Z.leb_spec (2 ^ 63) v); [done |].
      by rewrite int64_small by lia.
Qed.

Lemma ParseInt_not_digits s :
  spec_decimal_int s = None -> exists v e, strconv.ParseInt s = (v, Some e).
Proof.
  intros Hs. destruct (strconv.ParseInt s) as [v [e |]] eqn:E; [eauto |].
  apply ParseInt_spec in E as [E _]. congruence.
Qed.

(** The number [ParseInt] returns lies in [int64], with or without an
    error. *)
Lemma ParseInt_range s : - 2 ^ 63 <= (strconv.ParseInt s).1 < 2 ^ 63.
Proof.
  destruct (spec_decimal_int s) as [v |] eqn:Hs.
  - rewrite (ParseInt_digits s v Hs).
    destruct (Z.ltb_spec v (- 2 ^ 63)); [simpl; lia |].
    destruct (Z.leb_spec (2 ^ 63) v); simpl; lia.
  - unfold strconv.ParseInt. destruct s as [| ch s1]; [simpl; lia |].
    destruct (if Ascii.eqb ch "+" then _ else _) as [neg t].
    destruct (strconv.ParseUint t) as [un err].
    cbv zeta iota beta.
    repeat match goal with
           | |- context [if ?c then _ else _] => destruct c
           end; cbn [fst]; try apply int64_range; lia.
Qed.

Section NumberProperties.

Variable IntSize : Z.
Variable ParseFloat64 : string -> result Z.
Variable float64_of_int64 float64_of_uint64 : Z -> Z.
Variable int_of_float64 int64_of_float64 uint64_of_float64 : Z -> Z.

(** [Int64] on a [Number] whose text is an optional sign and decimal
    digits returns the value when it lies in [int64]; below it returns
    the least [int64] and above the greatest, both with a range error.
    On any other text it returns an error.  The number returned lies in
    [int64] in every case. *)
Theorem Int64_Number_saturates (s : string) :
  - 2 ^ 63 <= (Int64 int64_of_float64 (mkGson (Number s))).1 < 2 ^ 63
  /\ match spec_decimal_int s with
     | Some v =>
         Int64 int64_of_float64 (mkGson (Number s)) =
         if v <? - 2 ^ 63 then (- 2 ^ 63, Some (NumError "ParseInt" s ErrRange))
         else if 2 ^ 63 <=? v then (2 ^ 63 - 1, Some (NumError "ParseInt" s ErrRange))
         else (v, None)
     | None =>
         exists v e, Int64 int64_of_float64 (mkGson (Number s)) = (v, Some e)
     end.
Proof.
  unfold Int64, Number_Int64. simpl. split; [apply ParseInt_range |].
  - destruct (spec_decimal_int s) as [v |] eqn:Hs.
    + by apply ParseInt_digits.
    + by apply ParseInt_not_digits.
Qed.

(** [Uint64] on a [Number] whose text is decimal digits returns the
    value below [2^64], and from there on [2^64 - 1] with a range
    error; any other text, a text with a sign included, is an error. *)
Theorem Uint64_Number_exact (s : string) :
  match spec_decimal_nat s with
  | Some v =>
      Uint64 uint64_of_float64 (mkGson (Number s)) =
      if 2 ^ 64 <=? v then (2 ^ 64 - 1, Some (NumError "ParseUint" s ErrRange))
      else (v, None)
  | None =>
      exists v e, Uint64 uint64_of_float64 (mkGson (Number s)) = (v, Some e)
  end
  /\ (exists e, Uint64 uint64_of_float64 (mkGson (Number (String "-" s)))
                = (0, Some e))
  /\ (exists e, Uint64 uint64_of_float64 (mkGson (Number (String "+" s)))
                = (0, Some e)).
Proof.
  unfold Uint64, Number_String. simpl. split; [| split; eauto].
  destruct (spec_decimal_nat s) as [v |] eqn:Hs.
  - by apply ParseUint_digits.
  - destruct (strconv.ParseUint s) as [v [e |]] eqn:E; [eauto |].
    apply ParseUint_spec in E as [E _]. congruence.
Qed.

(** [MustInt64] on a [Number] returns the integer the text stands for
    when it lies in [int64], else the default: never the greatest or
    least [int64] that [Int64] returns with its range error. *)
Theorem MustInt64_Number (d : option Z) (s : string) :
  MustInt64 int64_of_float64 (option_list d) (mkGson (Number s)) =
  Ret (match spec_decimal_int s with
       | Some v => if (- 2 ^ 63 <=? v) && (v <? 2 ^ 63) then v else default 0 d
       | None => default 0 d
       end).
Proof.
  unfold MustInt64. rewrite must_at_most_one. f_equal.
  unfold Int64, Number_Int64. simpl.
  destruct (spec_decimal_int s) as [v |] eqn:Hs.
  - rewrite (ParseInt_digits s v Hs).
    destruct (Z.ltb_spec v (- 2 ^ 63)), (Z.leb_spec (- 2 ^ 63) v); try lia; [done |].
    destruct (Z.leb_spec (2 ^ 63) v), (Z.ltb_spec v (2 ^ 63)); try lia; done.
  - by destruct (ParseInt_not_digits s Hs) as (v & e & ->).
Qed.

(** Where [int] has 64 bits [Int] returns on a [Number] and on a host
    unsigned integer what [Int64] returns. *)
Theorem Int_is_Int64_at_64 :
  (forall s, Int 64 int_of_float64 (mkGson (Number s))
             = Int64 int64_of_float64 (mkGson (Number s)))
  /\ (forall k u, Int 64 int_of_float64 (mkGson (HUint k u))
                  = Int64 int64_of_float64 (mkGson (HUint k u))).
Proof.
  split; [| done].
  intros s. unfold Int, Int64. simpl.
  pose proof (ParseInt_range s) as H.
  unfold Number_Int64 in *. destruct (strconv.ParseInt s) as [i err].
  f_equal. apply int64_small. exact H.
Qed.

(** A host integer is cast with no range check: [Uint64] reads a
    negative [int64] as the integer plus [2^64], with no error, and
    [Int64] reads that [uint64] back as the integer it was. *)
Theorem host_integer_casts_wrap (k : int_kind) (k' : uint_kind) (i : Z) :
  - 2 ^ 63 <= i < 2 ^ 63 ->
  Uint64 uint64_of_float64 (mkGson (HInt k i))
    = (if i <? 0 then i + 2 ^ 64 else i, None)
  /\ Int64 int64_of_float64
       (mkGson (HUint k' (Uint64 uint64_of_float64 (mkGson (HInt k i))).1))
     = (i, None).
Proof.
  intros Hi. unfold Uint64, Int64. simpl.
  assert (E : uint64 i = if i <? 0 then i + 2 ^ 64 else i).
  { unfold uint64. destruct (Z.ltb_spec i 0).
    - replace i with ((i + 2 ^ 64) + (-1) * 2 ^ 64) at 1 by ring.
      rewrite Z.mod_add by lia. apply Z.mod_small. lia.
    - apply Z.mod_small. lia. }
  rewrite E. split; [done |]. f_equal.
  destruct (Z.ltb_spec i 0).
  - unfold int64.
    replace (i + 2 ^ 64 + 2 ^ 63) with ((i + 2 ^ 63) + 1 * 2 ^ 64) by ring.
    rewrite Z.mod_add by lia. rewrite Z.mod_small; lia.
  - apply int64_small. lia.
Qed.

(** With no default or one, a must accessor does not panic: it returns
    the value of its strict accessor when that returns no error, and
    else the default, the zero value of the type when there is none.
    On the nil map [Map] returns no error, so [MustMap] returns the nil
    map and not the default. *)
Theorem must_accessors_with_at_most_one_default (self : Gson) :
  (forall d, MustString (option_list d) self
             = Ret (match data self with Str s => s | _ => default "" d end))
  /\ (forall d, MustBool (option_list d) self
                = Ret (match data self with Bool b => b | _ => default false d end))
  /\ (forall d, MustArray (option_list d) self
                = Ret (match data self with Array a => Some a | _ => default None d end))
  /\ (forall d, MustMap (option_list d) self
                = Ret (match data self with
                       | Map m => Some m
                       | NilMap => None
                       | _ => default None d
                       end))
  /\ (forall d, MustStringArray (option_list d) self
                = Ret (match StringArray self with
                       | (a, None) => a
                       | (_, Some _) => default None d
                       end))
  /\ (forall d, MustInt IntSize int_of_float64 (option_list d) self
                = Ret (match Int IntSize int_of_float64 self with
                       | (a, None) => a
                       | (_, Some _) => default 0 d
                       end))
  /\ (forall d, MustInt64 int64_of_float64 (option_list d) self
                = Ret (match Int64 int64_of_float64 self with
                       | (a, None) => a
                       | (_, Some _) => default 0 d
                       end))
  /\ (forall d, MustUint64 uint64_of_float64 (option_list d) self
                = Ret (match Uint64 uint64_of_float64 self with
                       | (a, None) => a
                       | (_, Some _) => default 0 d
                       end))
  /\ (forall d, MustFloat64 ParseFloat64 float64_of_int64 float64_of_uint64
                  (option_list d) self
                = Ret (match Float64 ParseFloat64 float64_of_int64
                               float64_of_uint64 self with
                       | (a, None) => a
                       | (_, Some _) => default 0 d
                       end)).
Proof.
  destruct self as [v].
  repeat split; intros d;
    first [ apply must_at_most_one
          | unfold MustString, MustBool, MustArray, MustMap;
            rewrite must_at_most_one; f_equal; by destruct v ].
Qed.

End NumberProperties.

Lemma host_integer_casts_wrap_witness :
  Uint64 (fun bits => bits) (mkGson (HInt Kint64 (-1))) = (2 ^ 64 - 1, None)
  /\ Int64 (fun bits => bits)
       (mkGson (HUint Kuint64
                  (Uint64 (fun bits => bits) (mkGson (HInt Kint64 (-1)))).1))
     = (-1, None).
Proof.
  apply (host_integer_casts_wrap (fun bits => bits) (fun bits => bits)
           Kint64 Kuint64 (-1)).
  lia.
Defined.
